(** * etl: the Result / Error subsystem of [include/etl.hpp]

    A shallow embedding of the classes [SourceLocation], [Error],
    [Result<OkType, ErrType>] and the partial specialization
    [Result<std::unique_ptr<OkType>, ErrType>], followed by the properties
    the library's specification states about them; then the class
    [EnumerationIterator] with the range-based for loop it serves, and
    further properties of all of them.

    Conventions of the embedding:
    - [std::string] and [std::string_view] are [string]; [std::string::append]
      is [String.append], written [+:+].
    - [uint32_t] is a [Z] reduced modulo [2^32].
    - [std::variant<A, B>] is the sum [A + B]; [std::get_if] returns an
      [option] in place of a possibly null pointer.
    - [std::optional<A>] is [option A].
    - dereferencing the null pointer is undefined behaviour; an operation
      that can do so returns in [option], [None] standing for the fault.
    - a [std::unique_ptr<A>] is an optional address into a heap
      [gmap positive A]. *)

From Stdlib Require Import ZArith Ascii DecimalString DecimalPos.
From stdpp Require Import base option strings gmap fin_maps.

Local Open Scope Z_scope.

(** ** Strings and numbers of the C++ standard library *)

(** The line feed, written [\n] in the source. *)
Definition LF : string := String (ascii_of_nat 10) EmptyString.

(** Conversion of a value to the parameter type [uint32_t]. *)
Definition uint32_t (z : Z) : Z := z mod 2 ^ 32.

(** [std::to_string(unsigned)]: the decimal digits, no sign, no padding. *)
Definition to_string (n : Z) : string :=
  NilEmpty.string_of_uint (N.to_uint (Z.to_N n)).

(** [std::string::empty]. *)
Definition empty (s : string) : bool :=
  match s with
  | EmptyString => true
  | String _ _ => false
  end.

(** ** class SourceLocation *)
Module SourceLocation.

Record t : Type := Build { file_ : string; line_ : Z; func_ : string }.

(** [SourceLocation(file, line, func)], the only constructor. *)
Definition make (file : string) (line : Z) (func : string) : t :=
  {| file_ := file; line_ := uint32_t line; func_ := func |}.

Definition file (slc : t) : string := file_ slc.
Definition line (slc : t) : Z := line_ slc.
Definition function (slc : t) : string := func_ slc.

End SourceLocation.

(** ** class Error *)
Module Error.

Record t : Type := Build { msg_ : string; info_ : string }.

(** [explicit Error(msg)]: [info_] keeps its default, the empty string. *)
Definition Error_msg (msg : string) : t :=
  {| msg_ := msg; info_ := EmptyString |}.

(** [Error(msg, SourceLocation &&slc)]: the chain of [append] calls on the
    default-initialised [info_]. *)
Definition Error_msg_slc (msg : string) (slc : SourceLocation.t) : t :=
  {| msg_ := msg;
     info_ :=
       (((((((EmptyString +:+ "Error: ")
                 +:+ msg)
                +:+ (LF +:+ "Function: "))
               +:+ SourceLocation.function slc)
              +:+ (LF +:+ "File: "))
             +:+ SourceLocation.file slc)
            +:+ ":")
           +:+ to_string (SourceLocation.line slc) |}.

(** [static create(msg)]. *)
Definition create (msg : string) : t :=
  let error := Error_msg msg in error.

(** [static create(msg, SourceLocation &&slc)]. *)
Definition create_slc (msg : string) (slc : SourceLocation.t) : t :=
  let error := Error_msg_slc msg slc in error.

(** [msg()]. *)
Definition msg (e : t) : string := msg_ e.

(** [set(msg)], both overloads: assigns [msg_] and nothing else. *)
Definition set (e : t) (msg : string) : t :=
  {| msg_ := msg; info_ := info_ e |}.

(** [info()]. *)
Definition info (e : t) : string :=
  if negb (empty (info_ e)) then info_ e else msg_ e.

End Error.

(** ** [std::variant] with two alternatives *)
Section Variant.
Context {A B : Type}.

(** [std::get_if<A>]: the first alternative, or the null pointer. *)
Definition get_if_fst (v : A + B) : option A :=
  match v with
  | inl a => Some a
  | inr _ => None
  end.

(** [std::get_if<B>]: the second alternative, or the null pointer. *)
Definition get_if_snd (v : A + B) : option B :=
  match v with
  | inl _ => None
  | inr b => Some b
  end.
End Variant.

(** A callable handed to [map] or [mapErr] of a Result whose matching
    alternative has type [A] and whose other alternative has type [B].

    The [if constexpr] test is [std::is_invocable_r_v<A, Function, A const &>]:
    the callable can be invoked on an [A] and its result converts implicitly
    to [A]. When the test holds the combinator returns
    [Result<OkType, ErrType>(std::invoke(func, value))], so the type of the
    result of the call selects, by overload resolution, the constructor that
    receives it. The cases:
    - [Invocable func]: the result is an [A]; the constructor for [A]
      receives it.
    - [Converting func conv]: the result has another type [R], which converts
      to [A] by [conv]; the constructor for [A] receives the converted
      value (a callable from [long] to [long] on a Result over [int]).
    - [InvocableOther func]: the result converts to [A], so the test holds,
      but it is a [B], or converts to [B] by a better conversion; the
      constructor for [B] receives it (a callable from [int] to [long] on a
      [Result<int, long>]).
    - [NotInvocable]: the test fails.
    In each case [func] is the call on an [A], the conversion of the argument
    included. A callable whose result is itself a Result object, and so
    selects the copy or move constructor, is not represented. *)
Inductive Function (A B : Type) : Type :=
| Invocable (func : A -> A)
| Converting {R : Type} (func : A -> R) (conv : R -> A)
| InvocableOther (func : A -> B)
| NotInvocable.
Arguments Invocable {A B} func.
Arguments Converting {A B R} func conv.
Arguments InvocableOther {A B} func.
Arguments NotInvocable {A B}.

(** [std::is_invocable_r_v<A, Function, A const &>]. *)
Definition is_invocable_r_v {A B : Type} (func : Function A B) : bool :=
  match func with
  | NotInvocable => false
  | _ => true
  end.

(** The callable has the signature the combinator expects: from [A] to
    [A]. *)
Definition expected_signature {A B : Type} (func : Function A B) : bool :=
  match func with
  | Invocable _ => true
  | _ => false
  end.

(** The result of the callable selects the constructor of the other
    alternative. *)
Definition selects_other {A B : Type} (func : Function A B) : bool :=
  match func with
  | InvocableOther _ => true
  | _ => false
  end.

(** ** template class Result<OkType, ErrType> *)
Module Result.
Section Generic.
Context {OkType ErrType : Type}.

Record t : Type := Build { result_ : OkType + ErrType; isOk_ : bool }.

(** [explicit Result(OkType const &value)] and [Result(OkType &&value)]. *)
Definition of_ok (value : OkType) : t :=
  {| result_ := inl value; isOk_ := true |}.

(** [explicit Result(ErrType const &error)] and [Result(ErrType &&error)]. *)
Definition of_err (error : ErrType) : t :=
  {| result_ := inr error; isOk_ := false |}.

Definition isOk (r : t) : bool := isOk_ r.

Definition isErr (r : t) : bool := negb (isOk_ r).

(** [ok()]: the null result of [get_if] falls through to [std::nullopt]. *)
Definition ok (r : t) : option OkType :=
  if isOk_ r then
    match get_if_fst (result_ r) with
    | Some value => Some value
    | None => None
    end
  else None.

(** [err()]. *)
Definition err (r : t) : option ErrType :=
  if negb (isOk_ r) then
    match get_if_snd (result_ r) with
    | Some err => Some err
    | None => None
    end
  else None.

(** [map(func)]. The pointer that [get_if] returns is dereferenced
    unchecked, so the outer [option] is [None] when it is null. *)
Definition map (r : t) (func : Function OkType ErrType) : option t :=
  if isOk_ r then
    match func with
    | Invocable f =>
        value ← get_if_fst (result_ r); Some (of_ok (f value))
    | Converting f conv =>
        value ← get_if_fst (result_ r); Some (of_ok (conv (f value)))
    | InvocableOther f =>
        value ← get_if_fst (result_ r); Some (of_err (f value))
    | NotInvocable =>
        value ← get_if_fst (result_ r); Some (of_ok value)
    end
  else
    error ← get_if_snd (result_ r); Some (of_err error).

(** [mapErr(func)], with the same unchecked dereferences. *)
Definition mapErr (r : t) (func : Function ErrType OkType) : option t :=
  if negb (isOk_ r) then
    match func with
    | Invocable f =>
        error ← get_if_snd (result_ r); Some (of_err (f error))
    | Converting f conv =>
        error ← get_if_snd (result_ r); Some (of_err (conv (f error)))
    | InvocableOther f =>
        error ← get_if_snd (result_ r); Some (of_ok (f error))
    | NotInvocable =>
        error ← get_if_snd (result_ r); Some (of_err error)
    end
  else
    value ← get_if_fst (result_ r); Some (of_ok value).

(** The discriminant agrees with the live alternative of the variant. *)
Definition consistent (r : t) : Prop :=
  match result_ r with
  | inl _ => isOk_ r = true
  | inr _ => isOk_ r = false
  end.

(** The Results a client can obtain: built by a constructor, or returned
    by [map] or [mapErr] on one already obtained. *)
Inductive reachable : t -> Prop :=
| reachable_of_ok (value : OkType) : reachable (of_ok value)
| reachable_of_err (error : ErrType) : reachable (of_err error)
| reachable_map (r r' : t) (func : Function OkType ErrType) :
    reachable r -> map r func = Some r' -> reachable r'
| reachable_mapErr (r r' : t) (func : Function ErrType OkType) :
    reachable r -> mapErr r func = Some r' -> reachable r'.

End Generic.
Arguments t : clear implicits.
End Result.

(** ** template class Result<std::unique_ptr<OkType>, ErrType> *)
Module ResultUniquePtr.
Section Specialization.
Context {OkType ErrType : Type}.

(** A [std::unique_ptr<OkType>]: the address it owns, [None] when null. *)
Definition unique_ptr : Type := option positive.

Record t : Type := Build { result_ : unique_ptr + ErrType; isOk_ : bool }.

(** [explicit Result(std::unique_ptr<OkType> &&value)]. *)
Definition of_ok (value : unique_ptr) : t :=
  {| result_ := inl value; isOk_ := true |}.

(** [explicit Result(const ErrType &error)] and [Result(ErrType &&error)]. *)
Definition of_err (error : ErrType) : t :=
  {| result_ := inr error; isOk_ := false |}.

Definition isOk (r : t) : bool := isOk_ r.

Definition isErr (r : t) : bool := negb (isOk_ r).

(** [std::make_unique<OkType>(x)]: a new cell, at an address that is not
    in use, initialised with a copy of [x]. *)
Definition make_unique (x : OkType) (h : gmap positive OkType)
  : positive * gmap positive OkType :=
  let p := fresh (dom h) in (p, <[p := x]> h).

(** [**value]: the pointee of the owned pointer; a fault when the pointer
    is null or owns no cell. *)
Definition deref (value : unique_ptr) (h : gmap positive OkType)
  : option OkType :=
  p ← value; h !! p.

(** [ok()], run on the heap [h]: the result and the heap it leaves. *)
Definition ok (r : t) (h : gmap positive OkType)
  : option (option unique_ptr * gmap positive OkType) :=
  if isOk_ r then
    match get_if_fst (result_ r) with
    | Some value =>
        x ← deref value h;
        let '(p, h') := make_unique x h in
        Some (Some (Some p), h')
    | None => Some (None, h)
    end
  else Some (None, h).

(** [err()]. *)
Definition err (r : t) : option ErrType :=
  if negb (isOk_ r) then
    match get_if_snd (result_ r) with
    | Some err => Some err
    | None => None
    end
  else None.

End Specialization.
Arguments t : clear implicits.
End ResultUniquePtr.

(** ** template class EnumerationIterator<EnumIterable, beginValue, endValue>

    An enumerator is written as its underlying integer. The underlying type
    of the enumeration is not fixed by the class, so the conversion
    [static_cast<value_t>] is the parameter [value_t]; the conversion into
    the data member of type [std::int64_t] is [int64_t]. *)
Definition INT64_MAX : Z := 2 ^ 63 - 1.

Definition INT64_MIN : Z := - 2 ^ 63.

(** Conversion of an integer to [std::int64_t]. *)
Definition int64_t (z : Z) : Z := (z + 2 ^ 63) mod 2 ^ 64 - 2 ^ 63.

(** How a walk over the enumeration ends: the loop leaves with the
    enumerators it has passed to its body; or [++value_] overflows the signed
    counter, which is undefined behaviour; or the steps allotted are used
    up. *)
Inductive walk : Type :=
| Finished (visited : list Z)
| Overflow
| OutOfSteps.

Module EnumerationIterator.
Section Class.
Variable value_t : Z -> Z.
Variables beginValue endValue : Z.

Record t : Type := Build { value_ : Z }.

(** [EnumerationIterator()]: positioned on [beginValue]. *)
Definition default : t := {| value_ := int64_t (value_t beginValue) |}.

(** [explicit EnumerationIterator(const EnumIterable &iter)]. *)
Definition of_enum (iter : Z) : t := {| value_ := int64_t (value_t iter) |}.

(** [operator++()]: increments the counter and returns the iterator;
    [None] when the signed increment overflows. *)
Definition incr (it : t) : option t :=
  if decide (value_ it < INT64_MAX)
  then Some {| value_ := value_ it + 1 |}
  else None.

(** [operator*()]: the counter, cast to the enumeration. *)
Definition deref (it : t) : Z := value_t (value_ it).

(** [operator==]. *)
Definition eqb (it other_iterator : t) : bool :=
  bool_decide (value_ it = value_ other_iterator).

(** [operator!=]. *)
Definition neqb (it other_iterator : t) : bool :=
  negb (eqb it other_iterator).

(** [begin()]: a copy of the iterator it is called on. *)
Definition begin (it : t) : t := it.

(** [end()]: [++EnumerationIterator(endValue)], computed once and cached. *)
Definition end_ (it : t) : option t := incr (of_enum endValue).

(** The loop that a range-based [for] runs between two iterators:
    while [it != last], pass [*it] to the body, then [++it]. *)
Fixpoint loop (steps : nat) (it last : t) (visited : list Z) : walk :=
  match steps with
  | O => OutOfSteps
  | S steps' =>
      if neqb it last then
        match incr it with
        | Some it' => loop steps' it' last (visited ++ [deref it])
        | None => Overflow
        end
      else Finished visited
  end.

(** [for (auto e : range) body]: [range.begin()] and [range.end()] are taken
    once, then the loop runs. *)
Definition range_for (steps : nat) (range : t) : walk :=
  match end_ range with
  | Some last => loop steps (begin range) last []
  | None => Overflow
  end.

End Class.
Arguments value_ _ : assert.
End EnumerationIterator.

(** The conversion to the underlying type [int] (32 bits, signed). *)
Definition int32_t (z : Z) : Z := (z + 2 ^ 31) mod 2 ^ 32 - 2 ^ 31.

(** ** Sample values

    The scenario [Result<int, Error>(42)] of the specification, an Err-state
    companion, and a [Result<std::unique_ptr<int>, Error>] whose pointer owns
    the single cell of a heap. *)
Definition answer : Result.t Z Error.t := Result.of_ok 42.

Definition disk_full : Result.t Z Error.t :=
  Result.of_err (Error.create "disk full").

Definition boxed : ResultUniquePtr.t Error.t :=
  ResultUniquePtr.of_ok (Some 1%positive).

Definition one_cell : gmap positive Z := {[ 1%positive := 42 ]}.

(** * Properties *)

(** ** Strings *)
Section Strings.

Lemma append_assoc (s1 s2 s3 : string) :
  (s1 +:+ s2) +:+ s3 = s1 +:+ (s2 +:+ s3).
Proof.
  induction s1 as [|c s1 IH].
  - reflexivity.
  - change (String c ((s1 +:+ s2) +:+ s3) = String c (s1 +:+ s2 +:+ s3)).
    now rewrite IH.
Qed.

Lemma empty_true (s : string) : empty s = true <-> s = EmptyString.
Proof. destruct s; simpl; split; congruence. Qed.

Lemma empty_append_cons (c : ascii) (s1 s2 : string) :
  empty (String c s1 +:+ s2) = false.
Proof. reflexivity. Qed.

(** The decimal rendering of a number has at least one digit. *)
Lemma to_string_not_empty (n : Z) : empty (to_string n) = false.
Proof.
  unfold to_string.
  destruct (N.to_uint (Z.to_N n)) eqn:E; try reflexivity.
  exfalso. destruct (Z.to_N n) as [|q]; simpl in E; [discriminate|].
  pose proof (DecimalPos.Unsigned.to_uint_nonnil q) as Hq. congruence.
Qed.

Example to_string_samples :
  to_string 0 = "0" /\ to_string 42 = "42" /\
  to_string (uint32_t (2 ^ 32 - 1)) = "4294967295" /\
  to_string (uint32_t (2 ^ 32)) = "0".
Proof. repeat split. Qed.

Lemma uint32_t_range (z : Z) : 0 <= uint32_t z < 2 ^ 32.
Proof. unfold uint32_t. apply Z.mod_pos_bound. lia. Qed.

Lemma uint32_t_id (z : Z) : 0 <= z < 2 ^ 32 -> uint32_t z = z.
Proof. intros Hz. unfold uint32_t. now apply Z.mod_small. Qed.

End Strings.

(** ** Error *)
Section ErrorProperties.

(** The diagnostic that [Error(msg, slc)] composes, as one string. *)
Lemma info_of_Error_msg_slc (m : string) (slc : SourceLocation.t) :
  Error.info_ (Error.Error_msg_slc m slc) =
    "Error: " +:+ m +:+ LF +:+ "Function: " +:+ SourceLocation.function slc
      +:+ LF +:+ "File: " +:+ SourceLocation.file slc +:+ ":"
      +:+ to_string (SourceLocation.line slc).
Proof.
  unfold Error.Error_msg_slc; cbn [Error.info_].
  change (EmptyString +:+ "Error: ") with "Error: ".
  now rewrite !append_assoc.
Qed.

Lemma info_of_Error_msg_slc_not_empty (m : string) (slc : SourceLocation.t) :
  empty (Error.info_ (Error.Error_msg_slc m slc)) = false.
Proof. now rewrite info_of_Error_msg_slc. Qed.

(** [info()] of an Error built with a location is its diagnostic. *)
Lemma info_with_location (m : string) (slc : SourceLocation.t) :
  Error.info (Error.create_slc m slc) =
    Error.info_ (Error.Error_msg_slc m slc).
Proof.
  unfold Error.info, Error.create_slc.
  now rewrite info_of_Error_msg_slc_not_empty.
Qed.

(** C8: an Error created from a message alone reports that message both as
    [msg()] and as [info()], the diagnostic being empty. *)
Theorem create_msg_and_info (m : string) :
  Error.msg (Error.create m) = m /\
  Error.info (Error.create m) = m /\
  Error.info_ (Error.create m) = EmptyString.
Proof. split; [| split]; reflexivity. Qed.

(** C10: for the empty message and no source location, [info()] is the
    empty string. *)
Theorem create_empty_info_empty :
  Error.info (Error.create EmptyString) = EmptyString /\
  empty (Error.info (Error.create EmptyString)) = true.
Proof. split; reflexivity. Qed.

(** C2: with a source location, [info()] is exactly
    "Error: m\nFunction: fn\nFile: f:n", and it is not empty. *)
Theorem create_slc_info (m f fn : string) (n : Z) :
  0 <= n < 2 ^ 32 ->
  Error.info (Error.create_slc m (SourceLocation.make f n fn)) =
    "Error: " +:+ m +:+ LF +:+ "Function: " +:+ fn +:+ LF +:+ "File: "
      +:+ f +:+ ":" +:+ to_string n
  /\ empty (Error.info (Error.create_slc m (SourceLocation.make f n fn)))
     = false.
Proof.
  intros Hn. rewrite info_with_location, info_of_Error_msg_slc.
  unfold SourceLocation.make, SourceLocation.function, SourceLocation.file,
    SourceLocation.line; cbn [SourceLocation.file_ SourceLocation.line_
                                SourceLocation.func_].
  rewrite (uint32_t_id n Hn). split; reflexivity.
Qed.

Lemma create_slc_info_witness :
  0 <= 42 < 2 ^ 32 /\
  Error.info (Error.create_slc "disk full"
                (SourceLocation.make "io.cpp" 42 "save")) =
    "Error: disk full" +:+ LF +:+ "Function: save" +:+ LF
      +:+ "File: io.cpp:42".
Proof.
  split; [lia |].
  exact (proj1 (create_slc_info "disk full" "io.cpp" "save" 42
                  ltac:(lia))).
Defined.

(** C6: [set] replaces the message and leaves the diagnostic alone; so
    [info()] of an Error built with a location still shows the diagnostic
    composed from the old message, and [info()] of one built without a
    location shows the new message. *)
Theorem set_overwrites_msg_only (e : Error.t) (m m' : string)
    (slc : SourceLocation.t) :
  Error.msg (Error.set e m') = m' /\
  Error.info_ (Error.set e m') = Error.info_ e /\
  Error.info (Error.set (Error.create_slc m slc) m') =
    "Error: " +:+ m +:+ LF +:+ "Function: " +:+ SourceLocation.function slc
      +:+ LF +:+ "File: " +:+ SourceLocation.file slc +:+ ":"
      +:+ to_string (SourceLocation.line slc) /\
  Error.info (Error.set (Error.create_slc m slc) m') =
    Error.info (Error.create_slc m slc) /\
  Error.info (Error.set (Error.create m) m') = m'.
Proof.
  assert (Hset : Error.info (Error.set (Error.create_slc m slc) m') =
                 Error.info_ (Error.Error_msg_slc m slc)).
  { unfold Error.info, Error.set, Error.create_slc; cbn [Error.info_].
    now rewrite info_of_Error_msg_slc_not_empty. }
  split; [reflexivity |]. split; [reflexivity |].
  split; [| split].
  - now rewrite Hset, info_of_Error_msg_slc.
  - now rewrite Hset, info_with_location.
  - reflexivity.
Qed.

End ErrorProperties.

(** ** Result<OkType, ErrType> *)
Section ResultProperties.
Context {OkType ErrType : Type}.
Implicit Types (r : Result.t OkType ErrType) (v : OkType) (e : ErrType).

(** What a successful query says about the two data members. *)
Lemma ok_Some_inv r v : Result.ok r = Some v -> r = Result.of_ok v.
Proof.
  destruct r as [[x | x] [|]]; unfold Result.ok; simpl; intros H;
    try discriminate.
  now injection H as ->.
Qed.

Lemma err_Some_inv r e : Result.err r = Some e -> r = Result.of_err e.
Proof.
  destruct r as [[x | x] [|]]; unfold Result.err; simpl; intros H;
    try discriminate.
  now injection H as ->.
Qed.

Lemma consistent_cases r :
  Result.consistent r ->
  (exists v, r = Result.of_ok v) \/ (exists e, r = Result.of_err e).
Proof.
  destruct r as [[x | x] b]; unfold Result.consistent; simpl; intros ->.
  - left. now exists x.
  - right. now exists x.
Qed.

(** [map] and [mapErr] return consistent Results, whatever they are
    given. *)
Lemma map_consistent r r' (func : Function OkType ErrType) :
  Result.map r func = Some r' -> Result.consistent r'.
Proof.
  destruct r as [[x | x] [|]], func as [f | R f conv | f |]; unfold Result.map; simpl;
    intros H; try discriminate; injection H as <-; reflexivity.
Qed.

Lemma mapErr_consistent r r' (func : Function ErrType OkType) :
  Result.mapErr r func = Some r' -> Result.consistent r'.
Proof.
  destruct r as [[x | x] [|]], func as [f | R f conv | f |]; unfold Result.mapErr; simpl;
    intros H; try discriminate; injection H as <-; reflexivity.
Qed.

Lemma reachable_consistent r : Result.reachable r -> Result.consistent r.
Proof.
  induction 1 as [v | e | r r' func _ _ Hmap | r r' func _ _ Hmap].
  - reflexivity.
  - reflexivity.
  - exact (map_consistent _ _ _ Hmap).
  - exact (mapErr_consistent _ _ _ Hmap).
Qed.

(** On a consistent Result neither combinator dereferences a null
    pointer. *)
Lemma map_defined r (func : Function OkType ErrType) :
  Result.consistent r -> is_Some (Result.map r func).
Proof.
  intros [[v ->] | [e ->]]%consistent_cases; destruct func; now eexists.
Qed.

Lemma mapErr_defined r (func : Function ErrType OkType) :
  Result.consistent r -> is_Some (Result.mapErr r func).
Proof.
  intros [[v ->] | [e ->]]%consistent_cases; destruct func; now eexists.
Qed.

(** From a Result a client can obtain, both combinators return, and what
    they return is again such a Result. *)
Lemma reachable_map_returns r (func : Function OkType ErrType) :
  Result.reachable r ->
  exists r', Result.map r func = Some r' /\ Result.reachable r'.
Proof.
  intros Hr.
  destruct (map_defined r func (reachable_consistent r Hr)) as [r' Hr'].
  exists r'. split; [exact Hr' |].
  exact (Result.reachable_map r r' func Hr Hr').
Qed.

Lemma reachable_mapErr_returns r (func : Function ErrType OkType) :
  Result.reachable r ->
  exists r', Result.mapErr r func = Some r' /\ Result.reachable r'.
Proof.
  intros Hr.
  destruct (mapErr_defined r func (reachable_consistent r Hr)) as [r' Hr'].
  exists r'. split; [exact Hr' |].
  exact (Result.reachable_mapErr r r' func Hr Hr').
Qed.

(** The two data members are independent in the class: a flag that
    disagrees with the variant would make both queries come back empty. *)
Lemma inconsistent_answers_nothing v :
  let r := @Result.Build OkType ErrType (inl v) false in
  ~ Result.consistent r /\ Result.ok r = None /\ Result.err r = None.
Proof. simpl. split; [discriminate | split; reflexivity]. Qed.

(** C1: a Result built from an Ok value is in the Ok state and yields that
    value from [ok()] and nothing from [err()]; a Result built from an
    error is in the Err state and yields that error from [err()] and
    nothing from [ok()]. *)
Theorem constructors_set_state v e :
  (Result.isOk (Result.of_ok (ErrType := ErrType) v) = true /\
   Result.isErr (Result.of_ok (ErrType := ErrType) v) = false /\
   Result.ok (Result.of_ok (ErrType := ErrType) v) = Some v /\
   Result.err (Result.of_ok (ErrType := ErrType) v) = None) /\
  (Result.isOk (Result.of_err (OkType := OkType) e) = false /\
   Result.isErr (Result.of_err (OkType := OkType) e) = true /\
   Result.ok (Result.of_err (OkType := OkType) e) = None /\
   Result.err (Result.of_err (OkType := OkType) e) = Some e).
Proof. split; repeat (split; [reflexivity |]); reflexivity. Qed.

(** C3: [map] with a function from Ok to Ok, on a Result in the Ok state
    holding [v], returns a Result in the Ok state holding [f v]. *)
Theorem map_ok_applies r v (f : OkType -> OkType) :
  Result.ok r = Some v ->
  exists r', Result.map r (Invocable f) = Some r' /\
             Result.isOk r' = true /\
             Result.isErr r' = false /\
             Result.ok r' = Some (f v) /\
             Result.err r' = None.
Proof.
  intros ->%ok_Some_inv. exists (Result.of_ok (f v)).
  repeat (split; [reflexivity |]); reflexivity.
Qed.

(** C4: [map] on a Result in the Err state, and [mapErr] on a Result in
    the Ok state, return a Result in the same state with the same stored
    value, for any callable. *)
Theorem map_opposite_branch_identity r_err r_ok e v
    (f : Function OkType ErrType) (g : Function ErrType OkType) :
  Result.err r_err = Some e ->
  Result.ok r_ok = Some v ->
  (exists r', Result.map r_err f = Some r' /\
              Result.err r' = Some e /\
              Result.isErr r' = true /\
              r' = r_err) /\
  (exists r', Result.mapErr r_ok g = Some r' /\
              Result.ok r' = Some v /\
              Result.isOk r' = true /\
              r' = r_ok).
Proof.
  intros ->%err_Some_inv ->%ok_Some_inv. split.
  - exists (Result.of_err e). destruct f; repeat split.
  - exists (Result.of_ok v). destruct g; repeat split.
Qed.

(** C7, as amended: when [std::is_invocable_r_v] is false for the callable,
    [map] on a Result in the Ok state, and [mapErr] on a Result in the Err
    state, return a Result with the same state and the same payload. *)
Theorem map_not_invocable_pass_through r_ok r_err v e
    (f : Function OkType ErrType) (g : Function ErrType OkType) :
  is_invocable_r_v f = false ->
  is_invocable_r_v g = false ->
  Result.ok r_ok = Some v ->
  Result.err r_err = Some e ->
  (exists r', Result.map r_ok f = Some r' /\
              Result.isOk r' = Result.isOk r_ok /\
              Result.ok r' = Some v /\
              Result.err r' = None /\
              r' = r_ok) /\
  (exists r', Result.mapErr r_err g = Some r' /\
              Result.isErr r' = Result.isErr r_err /\
              Result.err r' = Some e /\
              Result.ok r' = None /\
              r' = r_err).
Proof.
  intros Hf Hg ->%ok_Some_inv ->%err_Some_inv.
  destruct f; try discriminate Hf. destruct g; try discriminate Hg.
  split.
  - exists (Result.of_ok v). repeat split.
  - exists (Result.of_err e). repeat split.
Qed.

(** C9: on every Result obtained from the constructors, [map] and
    [mapErr], the flag agrees with the live alternative, [isOk()] and
    [isErr()] are complements, and exactly one of [ok()] and [err()] is
    non-empty. *)
Theorem reachable_invariant r :
  Result.reachable r ->
  Result.consistent r /\
  Result.isErr r = negb (Result.isOk r) /\
  Result.isOk r = negb (Result.isErr r) /\
  ((Result.isOk r = true /\ is_Some (Result.ok r) /\ Result.err r = None) \/
   (Result.isErr r = true /\ Result.ok r = None /\ is_Some (Result.err r))).
Proof.
  intros Hr%reachable_consistent. split; [exact Hr |].
  destruct (consistent_cases r Hr) as [[v ->] | [e ->]].
  - split; [reflexivity |]. split; [reflexivity |].
    left. split; [reflexivity |]. split; [now exists v | reflexivity].
  - split; [reflexivity |]. split; [reflexivity |].
    right. split; [reflexivity |]. split; [reflexivity | now exists e].
Qed.

End ResultProperties.

(** ** Result<std::unique_ptr<OkType>, ErrType> *)
Section ResultUniquePtrProperties.
Context {OkType ErrType : Type}.
Implicit Types (r : ResultUniquePtr.t ErrType) (h : gmap positive OkType)
  (l p : positive) (x : OkType).

Lemma make_unique_fresh x h :
  h !! (ResultUniquePtr.make_unique x h).1 = None.
Proof.
  unfold ResultUniquePtr.make_unique; simpl.
  apply not_elem_of_dom, is_fresh.
Qed.

(** One call of [ok()] on a Result in the Ok state whose pointer owns a
    cell holding [x]: a new cell holding [x] is added and no other cell
    changes. *)
Lemma ok_copies_pointee r h l x :
  ResultUniquePtr.isOk r = true ->
  ResultUniquePtr.result_ r = inl (Some l) ->
  h !! l = Some x ->
  exists p,
    ResultUniquePtr.ok r h = Some (Some (Some p), <[p := x]> h) /\
    h !! p = None /\ p <> l.
Proof.
  intros Hok Hres Hl.
  exists (fresh (dom h)).
  assert (Hfresh : h !! fresh (dom h) = None)
    by apply (make_unique_fresh x h).
  split; [| split].
  - unfold ResultUniquePtr.ok, ResultUniquePtr.isOk in *.
    rewrite Hok, Hres. simpl. rewrite Hl. reflexivity.
  - exact Hfresh.
  - intros Heq. rewrite Heq in Hfresh. congruence.
Qed.

(** C5: in the Ok state, [ok()] returns a pointer to a new cell holding a
    copy of the pointee; the pointer stored in the Result still owns its
    cell, whose content is unchanged, as is every other cell; and a second
    call succeeds in the same way, with yet another cell. *)
Theorem ok_unique_ptr_deep_copy r h l x :
  ResultUniquePtr.isOk r = true ->
  ResultUniquePtr.result_ r = inl (Some l) ->
  h !! l = Some x ->
  exists p h',
    ResultUniquePtr.ok r h = Some (Some (Some p), h') /\
    p <> l /\
    h !! p = None /\
    h' !! p = Some x /\
    h' !! l = Some x /\
    ResultUniquePtr.deref (Some l) h' = Some x /\
    (forall q, q <> p -> h' !! q = h !! q) /\
    exists p2 h'',
      ResultUniquePtr.ok r h' = Some (Some (Some p2), h'') /\
      p2 <> l /\ p2 <> p /\
      h'' !! p2 = Some x /\ h'' !! p = Some x /\ h'' !! l = Some x.
Proof.
  intros Hok Hres Hl.
  destruct (ok_copies_pointee r h l x Hok Hres Hl) as (p & Hcall & Hp & Hpl).
  assert (Hl' : <[p := x]> h !! l = Some x)
    by now rewrite lookup_insert_ne.
  destruct (ok_copies_pointee r (<[p := x]> h) l x Hok Hres Hl')
    as (p2 & Hcall2 & Hp2 & Hp2l).
  assert (Hp2p : p2 <> p).
  { intros ->. rewrite lookup_insert_eq in Hp2. discriminate. }
  exists p, (<[p := x]> h).
  split; [exact Hcall |]. split; [exact Hpl |]. split; [exact Hp |].
  split; [apply lookup_insert_eq |]. split; [exact Hl' |].
  split; [exact Hl' |].
  split; [intros q Hq; now rewrite lookup_insert_ne |].
  exists p2, (<[p2 := x]> (<[p := x]> h)).
  split; [exact Hcall2 |]. split; [exact Hp2l |]. split; [exact Hp2p |].
  split; [apply lookup_insert_eq |].
  split; [| now rewrite lookup_insert_ne].
  rewrite lookup_insert_ne by exact Hp2p. apply lookup_insert_eq.
Qed.

(** The Err state leaves the heap alone and yields nothing. *)
Lemma ok_unique_ptr_err r h :
  ResultUniquePtr.isOk r = false -> ResultUniquePtr.ok r h = Some (None, h).
Proof.
  unfold ResultUniquePtr.ok, ResultUniquePtr.isOk. now intros ->.
Qed.

(** A Result built from a null pointer is in the Ok state, and [ok()]
    dereferences the null pointer. *)
Lemma ok_unique_ptr_null h :
  ResultUniquePtr.isOk (ResultUniquePtr.of_ok (ErrType := ErrType) None)
    = true /\
  ResultUniquePtr.ok (ResultUniquePtr.of_ok (ErrType := ErrType) None) h
    = None.
Proof. split; reflexivity. Qed.

End ResultUniquePtrProperties.

(** ** Instances at Result<int, Error> and Result<unique_ptr<int>, Error> *)
Section Instances.

Lemma map_ok_applies_witness :
  Result.ok answer = Some 42 /\
  exists r', Result.map answer (Invocable Z.succ) = Some r' /\
             Result.isOk r' = true /\
             Result.isErr r' = false /\
             Result.ok r' = Some 43 /\
             Result.err r' = None.
Proof.
  split; [reflexivity |].
  exact (map_ok_applies answer 42 Z.succ eq_refl).
Defined.

Lemma map_opposite_branch_identity_witness :
  Result.err disk_full = Some (Error.create "disk full") /\
  Result.ok answer = Some 42 /\
  (exists r', Result.map disk_full (Invocable Z.succ) = Some r' /\
              Result.err r' = Some (Error.create "disk full") /\
              Result.isErr r' = true /\
              r' = disk_full) /\
  (exists r', Result.mapErr answer
                (Invocable (fun e => Error.set e "retrying")) = Some r' /\
              Result.ok r' = Some 42 /\
              Result.isOk r' = true /\
              r' = answer).
Proof.
  split; [reflexivity |]. split; [reflexivity |].
  exact (map_opposite_branch_identity disk_full answer
           (Error.create "disk full") 42
           (Invocable Z.succ)
           (Invocable (fun e => Error.set e "retrying"))
           eq_refl eq_refl).
Defined.

Lemma map_not_invocable_pass_through_witness :
  is_invocable_r_v (NotInvocable : Function Z Error.t) = false /\
  is_invocable_r_v (NotInvocable : Function Error.t Z) = false /\
  Result.ok answer = Some 42 /\
  Result.err disk_full = Some (Error.create "disk full") /\
  (exists r', Result.map answer NotInvocable = Some r' /\
              Result.isOk r' = Result.isOk answer /\
              Result.ok r' = Some 42 /\
              Result.err r' = None /\
              r' = answer) /\
  (exists r', Result.mapErr disk_full NotInvocable = Some r' /\
              Result.isErr r' = Result.isErr disk_full /\
              Result.err r' = Some (Error.create "disk full") /\
              Result.ok r' = None /\
              r' = disk_full).
Proof.
  split; [reflexivity |]. split; [reflexivity |].
  split; [reflexivity |]. split; [reflexivity |].
  exact (map_not_invocable_pass_through answer disk_full 42
           (Error.create "disk full") NotInvocable NotInvocable
           eq_refl eq_refl eq_refl eq_refl).
Defined.

(** The claim C7 as first stated, for any callable that is not of the
    signature Ok -> Ok, fails: a callable from [long] to [long], here adding
    1000, is not of the signature [int] -> [int], yet on a
    [Result<int, Error>] the test [std::is_invocable_r_v] holds for it and
    [map] invokes it, so the payload 42 is not passed through. *)
Lemma map_other_signature_is_invoked :
  expected_signature
    (Converting (fun x : Z => x + 1000) int32_t : Function Z Error.t) = false /\
  Result.ok answer = Some 42 /\
  Result.map answer (Converting (fun x : Z => x + 1000) int32_t)
    = Some (Result.of_ok 1042) /\
  ~ (exists r',
        Result.map answer (Converting (fun x : Z => x + 1000) int32_t)
          = Some r' /\
        Result.isOk r' = Result.isOk answer /\
        Result.ok r' = Some 42).
Proof.
  split; [reflexivity |]. split; [reflexivity |]. split; [reflexivity |].
  intros (r' & Hmap & _ & Hok).
  vm_compute in Hmap. injection Hmap as <-. discriminate Hok.
Qed.

Lemma reachable_invariant_witness :
  Result.reachable (Result.of_ok (ErrType := Error.t) 43) /\
  Result.consistent (Result.of_ok (ErrType := Error.t) 43) /\
  Result.isErr (Result.of_ok (ErrType := Error.t) 43) = false /\
  Result.isOk (Result.of_ok (ErrType := Error.t) 43) = true /\
  ((Result.isOk (Result.of_ok (ErrType := Error.t) 43) = true /\
    is_Some (Result.ok (Result.of_ok (ErrType := Error.t) 43)) /\
    Result.err (Result.of_ok (ErrType := Error.t) 43) = None) \/
   (Result.isErr (Result.of_ok (ErrType := Error.t) 43) = true /\
    Result.ok (Result.of_ok (ErrType := Error.t) 43) = None /\
    is_Some (Result.err (Result.of_ok (ErrType := Error.t) 43)))).
Proof.
  assert (Hr : Result.reachable (Result.of_ok (ErrType := Error.t) 43)).
  { apply (Result.reachable_map answer _ (Invocable Z.succ)).
    - apply Result.reachable_of_ok.
    - reflexivity. }
  split; [exact Hr |].
  exact (reachable_invariant _ Hr).
Defined.

Lemma ok_unique_ptr_deep_copy_witness :
  ResultUniquePtr.isOk boxed = true /\
  ResultUniquePtr.result_ boxed = inl (Some 1%positive) /\
  one_cell !! 1%positive = Some 42 /\
  exists p h',
    ResultUniquePtr.ok boxed one_cell = Some (Some (Some p), h') /\
    p <> 1%positive /\
    h' !! p = Some 42 /\
    h' !! 1%positive = Some 42.
Proof.
  split; [reflexivity |]. split; [reflexivity |]. split; [reflexivity |].
  destruct (ok_unique_ptr_deep_copy boxed one_cell 1%positive 42
              eq_refl eq_refl eq_refl)
    as (p & h' & Hcall & Hne & _ & Hp & Hl & _).
  exists p, h'. repeat split; assumption.
Defined.

End Instances.

(** * Further properties of the classes *)

(** ** Error: relabelling and rendering *)
Section ErrorRelabelling.

Lemma info__foldl_set (e : Error.t) (ms : list string) :
  Error.info_ (foldl Error.set e ms) = Error.info_ e.
Proof.
  induction ms as [| m ms IH] using rev_ind.
  - reflexivity.
  - rewrite foldl_snoc. exact IH.
Qed.

Lemma msg_foldl_set (e : Error.t) (ms : list string) :
  Error.msg (foldl Error.set e ms) = default (Error.msg e) (last ms).
Proof.
  destruct ms as [| m ms _] using rev_ind.
  - reflexivity.
  - now rewrite foldl_snoc, last_snoc.
Qed.

(** X1: whatever the state of an Error, [info()] is not empty when the
    message is not. *)
Theorem info_not_empty (e : Error.t) :
  empty (Error.msg e) = false -> empty (Error.info e) = false.
Proof.
  unfold Error.info, Error.msg. intros Hmsg.
  destruct (empty (Error.info_ e)) eqn:Hinfo; simpl.
  - exact Hmsg.
  - exact Hinfo.
Qed.

Lemma info_not_empty_witness :
  empty (Error.msg (Error.set (Error.create EmptyString) "late")) = false /\
  empty (Error.info (Error.set (Error.create EmptyString) "late")) = false.
Proof.
  split; [reflexivity |].
  exact (info_not_empty (Error.set (Error.create EmptyString) "late") eq_refl).
Defined.

(** X2: after any number of calls of [set], [msg()] is the message set last
    (the original one if there was no call); [info()] of an Error built with
    a location is still the diagnostic composed at construction, and [info()]
    of one built without a location is the message set last. *)
Theorem info_after_sets (m : string) (slc : SourceLocation.t)
    (ms : list string) :
  Error.msg (foldl Error.set (Error.create_slc m slc) ms)
    = default m (last ms) /\
  Error.info (foldl Error.set (Error.create_slc m slc) ms)
    = Error.info (Error.create_slc m slc) /\
  Error.msg (foldl Error.set (Error.create m) ms) = default m (last ms) /\
  Error.info (foldl Error.set (Error.create m) ms) = default m (last ms).
Proof.
  split; [apply msg_foldl_set |]. split; [| split].
  - rewrite info_with_location. unfold Error.info.
    rewrite info__foldl_set. unfold Error.create_slc.
    now rewrite info_of_Error_msg_slc_not_empty.
  - apply msg_foldl_set.
  - unfold Error.info. rewrite info__foldl_set. simpl.
    apply msg_foldl_set.
Qed.

End ErrorRelabelling.

(** ** Result: the combinators as a whole *)
Section ResultCombinators.
Context {OkType ErrType : Type}.
Implicit Types (r : Result.t OkType ErrType) (v : OkType) (e : ErrType).

(** X3: [mapErr] with a function from Err to Err, on a Result in the Err
    state holding [e], returns a Result in the Err state holding [g e]. *)
Theorem mapErr_err_applies r e (g : ErrType -> ErrType) :
  Result.err r = Some e ->
  exists r', Result.mapErr r (Invocable g) = Some r' /\
             Result.isErr r' = true /\
             Result.isOk r' = false /\
             Result.err r' = Some (g e) /\
             Result.ok r' = None.
Proof.
  intros ->%err_Some_inv. exists (Result.of_err (g e)).
  repeat (split; [reflexivity |]); reflexivity.
Qed.

(** X4: [map] and [mapErr] keep the state of the Result they are called
    on, except when the result of the callable selects the constructor of
    the other alternative: then [map] turns a Result in the Ok state into one
    in the Err state, and [mapErr] turns a Result in the Err state into one
    in the Ok state. *)
Theorem combinators_state r r1 r2
    (f : Function OkType ErrType) (g : Function ErrType OkType) :
  Result.map r f = Some r1 ->
  Result.mapErr r g = Some r2 ->
  Result.isOk r1 = Result.isOk r && negb (selects_other f) /\
  Result.isErr r2 = Result.isErr r && negb (selects_other g).
Proof.
  destruct r as [[x | x] [|]], f as [f | R f conv | f |],
    g as [g | S g conv' | g |];
    unfold Result.map, Result.mapErr; simpl; intros H1 H2;
    try discriminate; injection H1 as <-; injection H2 as <-;
    split; reflexivity.
Qed.


(** X6: [map] and [mapErr] commute, applying them in either order gives
    the same Result, for two callables neither of whose results selects the
    constructor of the other alternative; in particular for a function from
    Ok to Ok and a function from Err to Err. *)
Theorem map_mapErr_commute r
    (f : Function OkType ErrType) (g : Function ErrType OkType) :
  selects_other f = false ->
  selects_other g = false ->
  (r' ← Result.map r f; Result.mapErr r' g)
    = (r' ← Result.mapErr r g; Result.map r' f).
Proof.
  intros Hf Hg.
  destruct f as [f | R f conv | f |]; try discriminate Hf;
    destruct g as [g | S g conv' | g |]; try discriminate Hg;
    destruct r as [[x | x] [|]]; reflexivity.
Qed.

(** X7: on a Result obtained from the constructors and the combinators,
    [map] and [mapErr] with the identity function return the Result
    unchanged. *)
Theorem map_identity r :
  Result.reachable r ->
  Result.map r (Invocable (fun v => v)) = Some r /\
  Result.mapErr r (Invocable (fun e => e)) = Some r.
Proof.
  intros Hr%reachable_consistent.
  destruct (consistent_cases r Hr) as [[v ->] | [e ->]]; split; reflexivity.
Qed.

(** X8: on a Result obtained from the constructors and the combinators,
    [map] and [mapErr] never dereference a null pointer: both return, and
    what they return is again such a Result. *)
Theorem reachable_combinators_return r
    (f : Function OkType ErrType) (g : Function ErrType OkType) :
  Result.reachable r ->
  (exists r', Result.map r f = Some r' /\ Result.reachable r') /\
  (exists r', Result.mapErr r g = Some r' /\ Result.reachable r').
Proof.
  intros Hr. pose proof (reachable_consistent r Hr) as Hc. split.
  - destruct (map_defined r f Hc) as [r' Hr'].
    exists r'. split; [exact Hr' |].
    exact (Result.reachable_map r r' f Hr Hr').
  - destruct (mapErr_defined r g Hc) as [r' Hr'].
    exists r'. split; [exact Hr' |].
    exact (Result.reachable_mapErr r r' g Hr Hr').
Qed.

(** X9: relabelling the Error of a failed Result through [mapErr] and [set],
    the use the source documents for [set]: the new Result is in the Err
    state, its Error carries the new message, and [info()] of an Error that
    was built with a location still shows the old diagnostic. *)
Theorem mapErr_set_relabels (m m' : string) (slc : SourceLocation.t) :
  exists relabelled : Error.t,
    Result.mapErr (Result.of_err (OkType := OkType) (Error.create_slc m slc))
      (Invocable (fun error : Error.t => Error.set error m'))
      = Some (Result.of_err relabelled) /\
    Result.err (Result.of_err (OkType := OkType) relabelled)
      = Some relabelled /\
    Error.msg relabelled = m' /\
    Error.info relabelled = Error.info (Error.create_slc m slc).
Proof.
  exists (Error.set (Error.create_slc m slc) m').
  split; [reflexivity |]. split; [reflexivity |]. split; [reflexivity |].
  rewrite info_with_location. unfold Error.info, Error.set, Error.create_slc.
  cbn [Error.info_]. now rewrite info_of_Error_msg_slc_not_empty.
Qed.

(** X15: a Result obtained from the constructors and the combinators is
    determined by what [ok()] and [err()] return: two such Results with the
    same answers are the same Result. *)
Theorem reachable_determined_by_queries r1 r2 :
  Result.reachable r1 ->
  Result.reachable r2 ->
  Result.ok r1 = Result.ok r2 ->
  Result.err r1 = Result.err r2 ->
  r1 = r2.
Proof.
  intros H1%reachable_consistent H2%reachable_consistent.
  destruct (consistent_cases r1 H1) as [[v1 ->] | [e1 ->]],
           (consistent_cases r2 H2) as [[v2 ->] | [e2 ->]];
    unfold Result.ok, Result.err; simpl; intros Hok Herr;
    congruence.
Qed.

End ResultCombinators.

(** ** Result<std::unique_ptr<OkType>, ErrType>: states and allocation *)
Section ResultUniquePtrStates.
Context {OkType ErrType : Type}.
Implicit Types (r : ResultUniquePtr.t ErrType) (h : gmap positive OkType)
  (l p : positive) (x : OkType).

(** X10: a Result built from an owned pointer is in the Ok state and
    [err()] is empty; a Result built from an error is in the Err state,
    [err()] yields that error, and [ok()] yields nothing and leaves every
    heap as it is. *)
Theorem unique_ptr_constructors_set_state (u : ResultUniquePtr.unique_ptr)
    (error : ErrType) h :
  (ResultUniquePtr.isOk (ResultUniquePtr.of_ok (ErrType := ErrType) u) = true /\
   ResultUniquePtr.isErr (ResultUniquePtr.of_ok (ErrType := ErrType) u) = false /\
   ResultUniquePtr.err (ResultUniquePtr.of_ok (ErrType := ErrType) u) = None) /\
  (ResultUniquePtr.isOk (ResultUniquePtr.of_err error) = false /\
   ResultUniquePtr.isErr (ResultUniquePtr.of_err error) = true /\
   ResultUniquePtr.err (ResultUniquePtr.of_err error) = Some error /\
   ResultUniquePtr.ok (ResultUniquePtr.of_err error) h = Some (None, h)).
Proof. split; repeat (split; [reflexivity |]); reflexivity. Qed.

(** X11: a Result in the Ok state whose owned pointer is null: [ok()]
    dereferences the null pointer, on every heap. *)
Theorem ok_unique_ptr_null_faults r h :
  ResultUniquePtr.isOk r = true ->
  ResultUniquePtr.result_ r = inl None ->
  ResultUniquePtr.ok r h = None.
Proof.
  unfold ResultUniquePtr.ok, ResultUniquePtr.isOk.
  intros -> ->. reflexivity.
Qed.

(** X12: each call of [ok()] in the Ok state allocates exactly one cell:
    the cells in use afterwards are the ones in use before and the one
    returned, and their number has grown by one. *)
Theorem ok_unique_ptr_allocates_one r h l x p h' :
  ResultUniquePtr.isOk r = true ->
  ResultUniquePtr.result_ r = inl (Some l) ->
  h !! l = Some x ->
  ResultUniquePtr.ok r h = Some (Some (Some p), h') ->
  (p ∉ dom h) /\ dom h' = {[ p ]} ∪ dom h /\ size h' = S (size h).
Proof.
  intros Hok Hres Hl Hcall.
  destruct (ok_copies_pointee r h l x Hok Hres Hl) as (q & Hq & Hfresh & _).
  rewrite Hq in Hcall. injection Hcall as <- <-.
  split; [now apply not_elem_of_dom |].
  split; [apply dom_insert_L | now apply map_size_insert_None].
Qed.

End ResultUniquePtrStates.

(** ** EnumerationIterator: the range-based for loop *)
Section EnumerationIteratorProperties.
Variable value_t : Z -> Z.

Lemma int64_t_id (z : Z) : INT64_MIN <= z <= INT64_MAX -> int64_t z = z.
Proof.
  unfold INT64_MIN, INT64_MAX, int64_t. intros Hz.
  rewrite Z.mod_small; lia.
Qed.

(** From the counter [v], with [n] values left before [last], the loop
    passes [v], [v + 1], ... to the body and leaves. *)
Lemma loop_visits (n : nat) :
  forall (steps : nat) (v last : Z) (visited : list Z),
    (n < steps)%nat ->
    v + Z.of_nat n = last ->
    last <= INT64_MAX ->
    (forall z, v <= z < last -> value_t z = z) ->
    EnumerationIterator.loop value_t steps
      (EnumerationIterator.Build v) (EnumerationIterator.Build last) visited
    = Finished (visited ++ seqZ v (Z.of_nat n)).
Proof.
  induction n as [| n IH]; intros steps v last visited Hsteps Hn Hmax Hvt;
    (destruct steps as [| steps]; [lia |]); simpl.
  - unfold EnumerationIterator.neqb, EnumerationIterator.eqb; simpl.
    rewrite bool_decide_eq_true_2 by lia. simpl.
    now rewrite seqZ_nil, app_nil_r by lia.
  - unfold EnumerationIterator.neqb, EnumerationIterator.eqb; simpl.
    rewrite bool_decide_eq_false_2 by lia. simpl.
    unfold EnumerationIterator.incr; simpl.
    rewrite decide_True by lia.
    rewrite (IH steps (v + 1) last) by (try lia; intros z Hz; apply Hvt; lia).
    unfold EnumerationIterator.deref; simpl. rewrite Hvt by lia.
    rewrite <- app_assoc. simpl.
    rewrite (seqZ_cons v (Z.of_nat (S n))) by lia.
    replace (Z.pred (Z.of_nat (S n))) with (Z.of_nat n) by lia.
    reflexivity.
Qed.

(** Past [last], the loop cannot leave. *)
Lemma loop_past_never_finishes (steps : nat) :
  forall (v last : Z) (visited result : list Z),
    last < v ->
    EnumerationIterator.loop value_t steps
      (EnumerationIterator.Build v) (EnumerationIterator.Build last) visited
    <> Finished result.
Proof.
  induction steps as [| steps IH]; intros v last visited result Hv; simpl.
  - discriminate.
  - unfold EnumerationIterator.neqb, EnumerationIterator.eqb; simpl.
    rewrite bool_decide_eq_false_2 by lia. simpl.
    unfold EnumerationIterator.incr; simpl.
    destruct (decide (v < INT64_MAX)); [| discriminate].
    apply IH. lia.
Qed.

(** Past [last], the counter runs up to [INT64_MAX] and overflows. *)
Lemma loop_past_overflows (n : nat) :
  forall (v last : Z) (visited : list Z),
    last < v ->
    v + Z.of_nat n = INT64_MAX ->
    EnumerationIterator.loop value_t (S n)
      (EnumerationIterator.Build v) (EnumerationIterator.Build last) visited
    = Overflow.
Proof.
  induction n as [| n IH]; intros v last visited Hv Hn;
    cbn [EnumerationIterator.loop];
    unfold EnumerationIterator.neqb, EnumerationIterator.eqb;
    cbn [EnumerationIterator.value_];
    rewrite bool_decide_eq_false_2 by lia; cbn [negb];
    unfold EnumerationIterator.incr; cbn [EnumerationIterator.value_].
  - now rewrite decide_False by lia.
  - rewrite decide_True by lia. apply IH; lia.
Qed.

(** X13: over an enumeration whose enumerators are the integers from
    [beginValue] to [endValue], the range-based for loop on a
    default-constructed iterator passes each of them to its body once, in
    increasing order, and leaves; on an iterator constructed from the
    enumerator [iter] it does so from [iter] on, [begin()] being the
    iterator itself. *)
Theorem range_for_visits_all (beginValue endValue : Z) :
  INT64_MIN <= beginValue ->
  beginValue <= endValue ->
  endValue < INT64_MAX ->
  (forall z, beginValue <= z <= endValue -> value_t z = z) ->
  (forall steps,
      (Z.to_nat (endValue - beginValue + 1) < steps)%nat ->
      EnumerationIterator.range_for value_t endValue steps
        (EnumerationIterator.default value_t beginValue)
      = Finished (seqZ beginValue (endValue - beginValue + 1))) /\
  (forall iter steps,
      beginValue <= iter <= endValue ->
      (Z.to_nat (endValue - iter + 1) < steps)%nat ->
      EnumerationIterator.range_for value_t endValue steps
        (EnumerationIterator.of_enum value_t iter)
      = Finished (seqZ iter (endValue - iter + 1))).
Proof.
  intros Hmin Hle Hmax Hvt.
  assert (Hfrom : forall iter steps,
    beginValue <= iter <= endValue ->
    (Z.to_nat (endValue - iter + 1) < steps)%nat ->
    EnumerationIterator.range_for value_t endValue steps
      (EnumerationIterator.of_enum value_t iter)
    = Finished (seqZ iter (endValue - iter + 1))).
  { intros iter steps Hiter Hsteps.
    unfold EnumerationIterator.range_for, EnumerationIterator.end_,
      EnumerationIterator.begin, EnumerationIterator.of_enum,
      EnumerationIterator.incr; simpl.
    rewrite !Hvt by lia.
    rewrite !int64_t_id by (unfold INT64_MIN, INT64_MAX in *; lia).
    rewrite decide_True by lia.
    rewrite (loop_visits (Z.to_nat (endValue - iter + 1)) steps iter
               (endValue + 1) []); try lia.
    - simpl. f_equal. f_equal. lia.
    - intros z Hz. apply Hvt. lia. }
  split.
  - intros steps Hsteps. apply (Hfrom beginValue steps); [lia | exact Hsteps].
  - exact Hfrom.
Qed.

(** X14: when the template arguments are such that [beginValue] lies more
    than one past [endValue], the range-based for loop never leaves: the
    counter starts past the end iterator, and incrementing it ends in signed
    overflow. *)
Theorem range_for_reversed_never_finishes (beginValue endValue : Z) :
  endValue + 1 < beginValue ->
  INT64_MIN <= endValue ->
  beginValue <= INT64_MAX ->
  value_t beginValue = beginValue ->
  value_t endValue = endValue ->
  (forall steps visited,
      EnumerationIterator.range_for value_t endValue steps
        (EnumerationIterator.default value_t beginValue)
      <> Finished visited) /\
  (exists steps,
      EnumerationIterator.range_for value_t endValue steps
        (EnumerationIterator.default value_t beginValue)
      = Overflow).
Proof.
  intros Hrev Hmin Hmax Hvb Hve.
  assert (Hrun : forall steps,
    EnumerationIterator.range_for value_t endValue steps
      (EnumerationIterator.default value_t beginValue)
    = EnumerationIterator.loop value_t steps
        (EnumerationIterator.Build beginValue)
        (EnumerationIterator.Build (endValue + 1)) []).
  { intros steps.
    unfold EnumerationIterator.range_for, EnumerationIterator.end_,
      EnumerationIterator.begin, EnumerationIterator.of_enum,
      EnumerationIterator.default, EnumerationIterator.incr; simpl.
    rewrite Hvb, Hve.
    rewrite !int64_t_id by (unfold INT64_MIN, INT64_MAX in *; lia).
    now rewrite decide_True by lia. }
  split.
  - intros steps visited. rewrite Hrun.
    apply loop_past_never_finishes. lia.
  - exists (S (Z.to_nat (INT64_MAX - beginValue))). rewrite Hrun.
    apply loop_past_overflows; lia.
Qed.

End EnumerationIteratorProperties.

(** ** Instances of the further properties *)
Section FurtherInstances.

Lemma mapErr_err_applies_witness :
  Result.err disk_full = Some (Error.create "disk full") /\
  exists r',
    Result.mapErr disk_full (Invocable (fun e => Error.set e "retrying"))
      = Some r' /\
    Result.isErr r' = true /\
    Result.isOk r' = false /\
    Result.err r' = Some (Error.set (Error.create "disk full") "retrying") /\
    Result.ok r' = None.
Proof.
  split; [reflexivity |].
  exact (mapErr_err_applies disk_full (Error.create "disk full")
           (fun e => Error.set e "retrying") eq_refl).
Defined.

Lemma combinators_state_witness :
  Result.map (Result.of_ok (ErrType := Z) 42) (InvocableOther (fun x => x + 1))
    = Some (Result.of_err 43) /\
  Result.mapErr (Result.of_ok (ErrType := Z) 42) (Invocable (fun e => e * 2))
    = Some (Result.of_ok 42) /\
  Result.isOk (Result.of_err (OkType := Z) 43) = false /\
  Result.isErr (Result.of_ok (ErrType := Z) 42) = false.
Proof.
  split; [reflexivity |]. split; [reflexivity |].
  exact (combinators_state (Result.of_ok 42) (Result.of_err 43)
           (Result.of_ok 42) (InvocableOther (fun x => x + 1))
           (Invocable (fun e => e * 2)) eq_refl eq_refl).
Defined.

Lemma map_mapErr_commute_witness :
  selects_other (Invocable Z.succ : Function Z Error.t) = false /\
  selects_other
    (Invocable (fun e => Error.set e "retrying") : Function Error.t Z)
    = false /\
  (r' ← Result.map disk_full (Invocable Z.succ);
   Result.mapErr r' (Invocable (fun e => Error.set e "retrying")))
  = (r' ← Result.mapErr disk_full (Invocable (fun e => Error.set e "retrying"));
     Result.map r' (Invocable Z.succ)).
Proof.
  split; [reflexivity |]. split; [reflexivity |].
  exact (map_mapErr_commute disk_full (Invocable Z.succ)
           (Invocable (fun e => Error.set e "retrying")) eq_refl eq_refl).
Defined.

(** Without the restriction of X6 the two orders differ: on
    [Result<int, long>(42)], with a callable from [int] to [long] adding one
    and a callable from [long] to [long] doubling, [map] then [mapErr] gives
    the Err state holding 86, [mapErr] then [map] the Err state holding 43. *)
Lemma map_mapErr_state_change_order :
  (r' ← Result.map (Result.of_ok (ErrType := Z) 42)
         (InvocableOther (fun x => x + 1));
   Result.mapErr r' (Invocable (fun e => e * 2)))
    = Some (Result.of_err 86) /\
  (r' ← Result.mapErr (Result.of_ok (ErrType := Z) 42)
         (Invocable (fun e => e * 2));
   Result.map r' (InvocableOther (fun x => x + 1)))
    = Some (Result.of_err 43).
Proof. split; reflexivity. Qed.

Lemma map_identity_witness :
  Result.reachable disk_full /\
  Result.map disk_full (Invocable (fun v => v)) = Some disk_full /\
  Result.mapErr disk_full (Invocable (fun e => e)) = Some disk_full.
Proof.
  split; [apply Result.reachable_of_err |].
  exact (map_identity disk_full (Result.reachable_of_err _)).
Defined.

Lemma reachable_combinators_return_witness :
  Result.reachable answer /\
  (exists r', Result.map answer (Invocable Z.succ) = Some r' /\
              Result.reachable r') /\
  (exists r', Result.mapErr answer NotInvocable = Some r' /\
              Result.reachable r').
Proof.
  split; [apply Result.reachable_of_ok |].
  exact (reachable_combinators_return answer (Invocable Z.succ) NotInvocable
           (Result.reachable_of_ok 42)).
Defined.

Lemma reachable_determined_by_queries_witness :
  Result.reachable answer /\
  Result.reachable (Result.of_ok (ErrType := Error.t) (Z.succ 41)) /\
  Result.ok answer = Result.ok (Result.of_ok (ErrType := Error.t) (Z.succ 41)) /\
  Result.err answer
    = Result.err (Result.of_ok (ErrType := Error.t) (Z.succ 41)) /\
  answer = Result.of_ok (Z.succ 41).
Proof.
  assert (H2 : Result.reachable (Result.of_ok (ErrType := Error.t) (Z.succ 41))).
  { apply (Result.reachable_map (Result.of_ok 41) _ (Invocable Z.succ)).
    - apply Result.reachable_of_ok.
    - reflexivity. }
  split; [apply Result.reachable_of_ok |]. split; [exact H2 |].
  split; [reflexivity |]. split; [reflexivity |].
  exact (reachable_determined_by_queries answer (Result.of_ok (Z.succ 41))
           (Result.reachable_of_ok 42) H2 eq_refl eq_refl).
Defined.

Lemma ok_unique_ptr_null_faults_witness :
  ResultUniquePtr.isOk (ResultUniquePtr.of_ok (ErrType := Error.t) None)
    = true /\
  ResultUniquePtr.result_ (ResultUniquePtr.of_ok (ErrType := Error.t) None)
    = inl None /\
  ResultUniquePtr.ok (ResultUniquePtr.of_ok (ErrType := Error.t) None) one_cell
    = None.
Proof.
  split; [reflexivity |]. split; [reflexivity |].
  exact (ok_unique_ptr_null_faults (ResultUniquePtr.of_ok None) one_cell
           eq_refl eq_refl).
Defined.

Lemma ok_unique_ptr_allocates_one_witness :
  ResultUniquePtr.isOk boxed = true /\
  ResultUniquePtr.result_ boxed = inl (Some 1%positive) /\
  one_cell !! 1%positive = Some 42 /\
  ResultUniquePtr.ok boxed one_cell
    = Some (Some (Some 2%positive), <[ 2%positive := 42 ]> one_cell) /\
  (2%positive ∉ dom one_cell) /\
  dom (<[ 2%positive := 42 ]> one_cell) = {[ 2%positive ]} ∪ dom one_cell /\
  size (<[ 2%positive := 42 ]> one_cell) = S (size one_cell).
Proof.
  split; [reflexivity |]. split; [reflexivity |]. split; [reflexivity |].
  split; [vm_compute; reflexivity |].
  apply (ok_unique_ptr_allocates_one boxed one_cell 1%positive 42 2%positive
           (<[ 2%positive := 42 ]> one_cell)); vm_compute; reflexivity.
Defined.

Lemma int32_t_small (z : Z) : 0 <= z <= 5 -> int32_t z = z.
Proof. intros Hz. unfold int32_t. rewrite Z.mod_small; lia. Qed.

Lemma range_for_visits_all_witness :
  INT64_MIN <= 0 /\ 0 <= 3 /\ 3 < INT64_MAX /\
  (forall z, 0 <= z <= 3 -> int32_t z = z) /\
  EnumerationIterator.range_for int32_t 3 5
    (EnumerationIterator.default int32_t 0) = Finished [0; 1; 2; 3] /\
  EnumerationIterator.range_for int32_t 3 5
    (EnumerationIterator.of_enum int32_t 2) = Finished [2; 3].
Proof.
  assert (H1 : INT64_MIN <= 0) by (unfold INT64_MIN; lia).
  assert (H2 : 0 <= 3) by lia.
  assert (H3 : 3 < INT64_MAX) by (unfold INT64_MAX; lia).
  assert (H4 : forall z, 0 <= z <= 3 -> int32_t z = z)
    by (intros z Hz; apply int32_t_small; lia).
  split; [exact H1 |]. split; [exact H2 |]. split; [exact H3 |].
  split; [exact H4 |].
  destruct (range_for_visits_all int32_t 0 3 H1 H2 H3 H4) as [Hall Hfrom].
  split.
  - apply (Hall 5%nat). vm_compute. lia.
  - apply (Hfrom 2 5%nat); [lia | vm_compute; lia].
Defined.

Lemma range_for_reversed_never_finishes_witness :
  3 + 1 < 5 /\ INT64_MIN <= 3 /\ 5 <= INT64_MAX /\
  int32_t 5 = 5 /\ int32_t 3 = 3 /\
  (forall steps visited,
      EnumerationIterator.range_for int32_t 3 steps
        (EnumerationIterator.default int32_t 5)
      <> Finished visited) /\
  (exists steps,
      EnumerationIterator.range_for int32_t 3 steps
        (EnumerationIterator.default int32_t 5)
      = Overflow).
Proof.
  assert (H1 : 3 + 1 < 5) by lia.
  assert (H2 : INT64_MIN <= 3) by (unfold INT64_MIN; lia).
  assert (H3 : 5 <= INT64_MAX) by (unfold INT64_MAX; lia).
  split; [exact H1 |]. split; [exact H2 |]. split; [exact H3 |].
  split; [reflexivity |]. split; [reflexivity |].
  exact (range_for_reversed_never_finishes int32_t 5 3 H1 H2 H3
           eq_refl eq_refl).
Defined.

End FurtherInstances.
